(** * Acoustic model of Tube-Resonance (src/main.py, lines 58-104)

    Shallow embedding of the four pure computations of the application:
    [vitesse_son] (speed of sound from temperature), [calculer_frequence_fondamentale],
    [calculer_harmoniques] and [calculer_frequence_avec_trous].

    Floating-point numbers are modelled by real numbers.  Two float effects
    that the claims talk about are kept explicit:
    - a division by a zero denominator is a separate outcome
      [Raise ZeroDivisionError] (the behaviour of Python floats; a numpy
      float64 operand yields a non-finite value instead, in both cases no
      finite frequency comes out);
    - [np.sqrt] of a negative number returns NaN without raising. *)

From Stdlib Require Import Reals Lra Psatz List Sorting.Sorted Sorting.Permutation.
Import ListNotations.

Open Scope R_scope.

(** ** Python outcomes *)

Inductive exn := ZeroDivisionError | IndexError | ValueError.

(** A computation either returns a value or raises an exception. *)
Inductive pyres (A : Type) :=
| Ok : A -> pyres A
| Raise : exn -> pyres A.
Arguments Ok {A} _.
Arguments Raise {A} _.

Definition bind {A B} (m : pyres A) (f : A -> pyres B) : pyres B :=
  match m with Ok a => f a | Raise e => Raise e end.

Notation "'let!' x ':=' m 'in' k" := (bind m (fun x => k))
  (at level 200, x name, m at level 100, k at level 200).

(** A numpy float64: a finite number or NaN. *)
Inductive f64 := Fin (r : R) | NaN.

(** [a / b] on floats. *)
Definition pydiv (a b : R) : pyres R :=
  if Req_EM_T b 0 then Raise ZeroDivisionError else Ok (a / b).

(** [xs[0]] on a Python list. *)
Definition getitem0 {A} (xs : list A) : pyres A :=
  match xs with x :: _ => Ok x | [] => Raise IndexError end.

(** [np.sqrt x]: NaN (with a RuntimeWarning only) below zero. *)
Definition np_sqrt (x : R) : f64 :=
  if Rlt_dec x 0 then NaN else Fin (sqrt x).

(** [np.pi * x] and the like, lifted to float64 values. *)
Definition f64_scale (k : R) (v : f64) : f64 :=
  match v with Fin r => Fin (k * r) | NaN => NaN end.

(** ** Data model *)

(** The pipe type: the radio button offers exactly two strings,
    "Ouvert aux deux extrémités" and "Fermé à une extrémité"; every
    function tests for the first and treats anything else as the second. *)
Inductive type_tube := Ouvert | Ferme.

(** A hole: the dictionary [{"position": ..., "diametre": ...}]. *)
Record trou := mk_trou { position : R; diametre : R }.

(** ** Speed of sound (line 58)
    [vitesse_son = 331.3 * np.sqrt(1 + temperature / 273.15)] *)
Definition vitesse_son (temperature : R) : pyres f64 :=
  Ok (f64_scale 331.3 (np_sqrt (1 + temperature / 273.15))).

(** ** Fundamental frequency (lines 61-65) *)
Definition calculer_frequence_fondamentale (v_son L : R) (t : type_tube) : pyres R :=
  match t with
  | Ouvert => pydiv v_son (2 * L)
  | Ferme => pydiv v_son (4 * L)
  end.

(** ** Harmonics (lines 67-71)
    [range(nombre_harmoniques)] is [seq 0 nombre_harmoniques]. *)
Definition calculer_harmoniques (freq_fond : R) (nombre_harmoniques : nat) (t : type_tube)
  : list R :=
  match t with
  | Ouvert => map (fun n => freq_fond * (INR n + 1)) (seq 0 nombre_harmoniques)
  | Ferme => map (fun n => freq_fond * (2 * INR n + 1)) (seq 0 nombre_harmoniques)
  end.

(** ** Frequency with side holes (lines 73-104) *)

(** [sorted(trous, key=lambda t: t["position"])]: Python's sort is stable,
    so it is the insertion sort that puts a hole before every later hole of
    equal position (the hole inserted comes earlier in the input than all
    holes already sorted). *)
Fixpoint inserer (x : trou) (s : list trou) : list trou :=
  match s with
  | [] => [x]
  | y :: s' => if Rlt_dec (position y) (position x) then y :: inserer x s' else x :: s
  end.

Definition trier (trous : list trou) : list trou := fold_right inserer [] trous.

(** The loop of lines 92-94:
    [section_trou = np.pi * (trou["diametre"]/2)**2]
    [correction_multi += (section_trou / section_tube) * (1 - trou["position"]) * L * 0.1] *)
Fixpoint boucle_multi (L section_tube correction_multi : R) (trous : list trou) : pyres R :=
  match trous with
  | [] => Ok correction_multi
  | trou :: reste =>
      let section_trou := PI * (diametre trou / 2) ^ 2 in
      let! q := pydiv section_trou section_tube in
      boucle_multi L section_tube (correction_multi + q * (1 - position trou) * L * 0.1) reste
  end.

(** Lines 78-98: the effective length [longueur_effective]. *)
Definition longueur_effective (L : R) (trous : list trou) (diametre_tube : R) : pyres R :=
  let trous_tries := trier trous in
  let! premier := getitem0 trous_tries in
  let position_premier_trou := position premier * L in
  let diametre_premier_trou := diametre premier in
  let correction := 0.3 * diametre_premier_trou in
  let! correction :=
    if Nat.ltb 1 (length trous) then
      let section_tube := PI * (diametre_tube / 2) ^ 2 in
      let! correction_multi := boucle_multi L section_tube 0 trous_tries in
      Ok (correction + correction_multi)
    else Ok correction in
  Ok (position_premier_trou + correction).

Definition calculer_frequence_avec_trous (v_son L : R) (t : type_tube) (trous : list trou)
  (diametre_tube : R) : pyres R :=
  match trous with
  | [] => calculer_frequence_fondamentale v_son L t
  | _ :: _ =>
      let! longueur_eff := longueur_effective L trous diametre_tube in
      match t with
      | Ouvert => pydiv v_son (2 * longueur_eff)
      | Ferme => pydiv v_son (4 * longueur_eff)
      end
  end.

(** ** The side-hole computation as the spec describes it
    (spec section 4.1, steps 1-6), for comparison with the code. *)

Fixpoint mapM {A B} (f : A -> pyres B) (xs : list A) : pyres (list B) :=
  match xs with
  | [] => Ok []
  | x :: xs' => let! y := f x in let! ys := mapM f xs' in Ok (y :: ys)
  end.

Definition spec_holeArea (h : trou) : R := PI * (diametre h / 2) ^ 2.
Definition spec_pipeArea (pipeDiameter : R) : R := PI * (pipeDiameter / 2) ^ 2.

Definition spec_fundamentalWithHoles (speedOfSound length : R) (t : type_tube)
  (holes : list trou) (pipeDiameter : R) : pyres R :=
  match trier holes with
  | [] => calculer_frequence_fondamentale speedOfSound length t
  | firstHole :: _ =>
      let positionMeters := position firstHole * length in
      let base := 0.3 * diametre firstHole in
      let! multi :=
        if Nat.ltb 1 (List.length holes) then
          let! terms := mapM (fun h =>
              let! ratio := pydiv (spec_holeArea h) (spec_pipeArea pipeDiameter) in
              Ok (ratio * (1 - position h) * length * 0.1)) (trier holes) in
          Ok (fold_right Rplus 0 terms)
        else Ok 0 in
      let effectiveLength := positionMeters + (base + multi) in
      calculer_frequence_fondamentale speedOfSound effectiveLength t
  end.

(** ** The application script around the model (lines 21-55, 107-112, 297-376) *)

(** Lines 39-55: one dictionary per hole, from the widget values
    [pos_trou] (percent of the length) and [diam_trou_mm] (millimetres). *)
Definition construire_trous (saisies : list (R * R)) : list trou :=
  map (fun '(pos_trou, diam_trou_mm) => mk_trou (pos_trou / 100) (diam_trou_mm / 1000)) saisies.

(** The ranges the number inputs of lines 46-50 accept:
    [min_value=5.0, max_value=95.0] and [min_value=1.0, max_value=float(diametre_mm-1)]. *)
Definition saisie_valide (diametre_mm : R) (saisie : R * R) : Prop :=
  let '(pos_trou, diam_trou_mm) := saisie in
  5 <= pos_trou <= 95 /\ 1 <= diam_trou_mm <= diametre_mm - 1.

(** Lines 107-110: [nb_trous] is the length of [trous] (the loop of lines
    42-55 appends exactly one hole per index). *)
Definition frequence_app (vitesse_son longueur : R) (type_tuyau : type_tube)
  (trous : list trou) (diametre : R) : pyres R :=
  if Nat.ltb 0 (length trous)
  then calculer_frequence_avec_trous vitesse_son longueur type_tuyau trous diametre
  else calculer_frequence_fondamentale vitesse_son longueur type_tuyau.

(** Lines 107-112: the fundamental and its five harmonics. *)
Definition resultats_app (vitesse_son longueur : R) (type_tuyau : type_tube)
  (trous : list trou) (diametre : R) : pyres (R * list R) :=
  let! freq_fondamentale := frequence_app vitesse_son longueur type_tuyau trous diametre in
  Ok (freq_fondamentale, calculer_harmoniques freq_fondamentale 5 type_tuyau).

(** [np.linspace(start, stop, num)]: [num] evenly spaced samples from
    [start] to [stop], both included. *)
Definition linspace (start stop : R) (num : nat) : list R :=
  map (fun i => start + INR i * ((stop - start) / INR (num - 1))) (seq 0 num).

(** [np.argmin]: the index of the first minimum; [ValueError] on an empty
    array. *)
Fixpoint argmin_aux (l : list R) (i best : nat) (min_val : R) : nat :=
  match l with
  | [] => best
  | x :: r => if Rlt_dec x min_val then argmin_aux r (S i) (S i) x else argmin_aux r (S i) best min_val
  end.

Definition argmin (l : list R) : pyres nat :=
  match l with
  | [] => Raise ValueError
  | x :: r => Ok (argmin_aux r 0 0 x)
  end.

(** Lines 326-331: the sweep over the temperature. *)
Definition balayage_temperature (longueur : R) (type_tuyau : type_tube)
  (trous : list trou) (diametre : R) (x_values : list R) : pyres (list f64) :=
  mapM (fun temperature =>
    let! v := vitesse_son temperature in
    match v with
    | NaN => Ok NaN
    | Fin v => let! f := frequence_app v longueur type_tuyau trous diametre in Ok (Fin f)
    end) x_values.

(** Lines 337-347: the sweep over the position of the first hole.
    [trous.copy()] is a shallow copy: the new list holds the same
    dictionaries as [trous], so [trous_modifies[0]["position"] = pos / 100]
    also changes [trous[0]], and the change stays for the next iterations
    and after the loop.  The model threads the contents of those shared
    dictionaries (the store) through the loop and returns the values of the
    curve with the store left at the end. *)
Definition modifier_premier (trous : list trou) (p : R) : pyres (list trou) :=
  match trous with
  | [] => Raise IndexError
  | t :: reste => Ok (mk_trou p (diametre t) :: reste)
  end.

Fixpoint balayage_position (vitesse_son longueur : R) (type_tuyau : type_tube)
  (diametre : R) (trous : list trou) (x_values_percent : list R) : pyres (list R * list trou) :=
  match x_values_percent with
  | [] => Ok ([], trous)
  | pos :: reste =>
      let! trous := modifier_premier trous (pos / 100) in
      let! y := calculer_frequence_avec_trous vitesse_son longueur type_tuyau trous diametre in
      let! r := balayage_position vitesse_son longueur type_tuyau diametre trous reste in
      Ok (y :: fst r, snd r)
  end.

Definition x_values_percent : list R := linspace 5 95 100.

(** Lines 374-377: the marker of the position sweep,
    [current_x = trous[0]["position"] * 100],
    [current_idx = np.abs(x_display - current_x).argmin()],
    [current_y_fond = y_values_fond[current_idx]], read after the sweep. *)
Definition marqueur_position (trous : list trou) (y_values_fond : list R) : pyres (R * R) :=
  let! premier := getitem0 trous in
  let current_x := position premier * 100 in
  let! current_idx := argmin (map (fun x => Rabs (x - current_x)) x_values_percent) in
  match nth_error y_values_fond current_idx with
  | Some y => Ok (current_x, y)
  | None => Raise IndexError
  end.

(** ** Sanity checks on small inputs *)

Example fond_ouvert_1 : calculer_frequence_fondamentale 343.4 1 Ouvert = Ok 171.7.
Proof.
  unfold calculer_frequence_fondamentale, pydiv.
  destruct (Req_EM_T (2 * 1) 0); [lra | f_equal; lra].
Qed.

Example harm_ferme_3 : calculer_harmoniques 2 3 Ferme = [2; 6; 10].
Proof.
  unfold calculer_harmoniques; cbn [map seq INR].
  repeat (apply f_equal2; [lra |]); reflexivity.
Qed.

(** ** Auxiliary lemmas *)

Lemma pydiv_nonzero (a b : R) : b <> 0 -> pydiv a b = Ok (a / b).
Proof. intros Hb. unfold pydiv. destruct (Req_EM_T b 0); [contradiction | reflexivity]. Qed.

Lemma inserer_perm (x : trou) (s : list trou) : Permutation (x :: s) (inserer x s).
Proof.
  induction s as [|y s IH]; simpl; [reflexivity |].
  destruct (Rlt_dec (position y) (position x)); [| reflexivity].
  etransitivity; [apply perm_swap |]. now apply perm_skip.
Qed.

Lemma trier_perm (trous : list trou) : Permutation trous (trier trous).
Proof.
  induction trous as [|t trous IH]; simpl; [reflexivity |].
  etransitivity; [apply perm_skip, IH | apply inserer_perm].
Qed.

Definition pos_le (a b : trou) : Prop := position a <= position b.

Lemma inserer_hdrel (z x : trou) (s : list trou) :
  HdRel pos_le z s -> pos_le z x -> HdRel pos_le z (inserer x s).
Proof.
  intros Hs Hzx. destruct s as [|y s]; simpl; [now constructor |].
  destruct (Rlt_dec (position y) (position x)); constructor; [now inversion Hs | exact Hzx].
Qed.

Lemma inserer_sorted (x : trou) (s : list trou) :
  Sorted pos_le s -> Sorted pos_le (inserer x s).
Proof.
  induction s as [|y s IH]; intros Hs; simpl; [now repeat constructor |].
  apply Sorted_inv in Hs as [Hs Hhd].
  destruct (Rlt_dec (position y) (position x)) as [Hlt | Hge].
  - constructor; [now apply IH |]. apply inserer_hdrel; [exact Hhd |]. unfold pos_le; lra.
  - constructor; [now constructor |]. constructor. unfold pos_le; lra.
Qed.

Lemma trier_sorted (trous : list trou) : Sorted pos_le (trier trous).
Proof. induction trous as [|t trous IH]; simpl; [constructor | now apply inserer_sorted]. Qed.

Lemma inserer_not_nil (x : trou) (s : list trou) : inserer x s <> [].
Proof. destruct s as [|y s]; simpl; [discriminate |]. destruct (Rlt_dec _ _); discriminate. Qed.

(** The loop accumulates the sum of the per-hole terms. *)
Lemma boucle_multi_sum (L section_tube acc : R) (trous : list trou) :
  boucle_multi L section_tube acc trous =
  let! terms := mapM (fun trou =>
      let! q := pydiv (PI * (diametre trou / 2) ^ 2) section_tube in
      Ok (q * (1 - position trou) * L * 0.1)) trous in
  Ok (acc + fold_right Rplus 0 terms).
Proof.
  revert acc. induction trous as [|t trous IH]; intros acc; cbn [boucle_multi mapM].
  - cbn [bind fold_right]. f_equal; ring.
  - destruct (pydiv (PI * (diametre t / 2) ^ 2) section_tube) as [q|e]; cbn [bind]; [| reflexivity].
    rewrite IH. destruct (mapM _ trous) as [terms|e]; cbn [bind fold_right]; [f_equal; ring | reflexivity].
Qed.

(** With one hole, the effective length is [position * L + 0.3 * diametre]. *)
Lemma longueur_effective_un_trou (L D : R) (h : trou) :
  longueur_effective L [h] D = Ok (position h * L + 0.3 * diametre h).
Proof. reflexivity. Qed.

(** [map g (seq a n)] is strictly increasing when [g] is. *)
Lemma map_seq_strictly_sorted (g : nat -> R) (a n : nat) :
  (forall i j, (i < j)%nat -> g i < g j) -> StronglySorted Rlt (map g (seq a n)).
Proof.
  intros Hg. revert a. induction n as [|n IH]; intros a; simpl; constructor; [apply IH |].
  apply Forall_forall. intros y Hy. apply in_map_iff in Hy as [i [<- Hi]].
  apply in_seq in Hi. apply Hg. lia.
Qed.

Lemma nth_map_seq0 (g : nat -> R) (count n : nat) :
  (n < count)%nat -> nth n (map g (seq 0 count)) 0 = g n.
Proof.
  intros Hn. rewrite (nth_indep _ 0 (g 0%nat)) by (now rewrite length_map, length_seq).
  rewrite map_nth, seq_nth by exact Hn. reflexivity.
Qed.

(** Bounds on the square root in [vitesse_son 20]. *)
Lemma sqrt_20_bounds : 1.03596 < sqrt (1 + 20 / 273.15) < 1.036.
Proof.
  split.
  - rewrite <- (sqrt_square 1.03596) at 1 by lra. apply sqrt_lt_1_alt. lra.
  - rewrite <- (sqrt_square 1.036) by lra. apply sqrt_lt_1_alt. lra.
Qed.

Lemma vitesse_son_20 : vitesse_son 20 = Ok (Fin (331.3 * sqrt (1 + 20 / 273.15))).
Proof.
  unfold vitesse_son, np_sqrt. destruct (Rlt_dec (1 + 20 / 273.15) 0); [lra | reflexivity].
Qed.

(** ** Claims *)

(** An outcome "fails" when the computation raises. *)
Definition echoue {A} (r : pyres A) : Prop :=
  match r with Raise _ => True | Ok _ => False end.

(** With a nonzero pipe section, the loop of lines 92-94 never raises. *)
Lemma boucle_multi_ok (L section_tube acc : R) (trous : list trou) :
  section_tube <> 0 -> exists r, boucle_multi L section_tube acc trous = Ok r.
Proof.
  intros Hs. revert acc. induction trous as [|t trous IH]; intros acc; cbn [boucle_multi].
  - now exists acc.
  - rewrite pydiv_nonzero by exact Hs. cbn [bind]. apply IH.
Qed.

(** Coefficient of the resonance formula: [2] for an open pipe, [4] for a
    pipe closed at one end. *)
Definition coef (t : type_tube) : R := match t with Ouvert => 2 | Ferme => 4 end.

(** C1: for every speed of sound [v] and every length [L > 0], the
    fundamental frequency is [v / (2 * L)] for an open pipe and
    [v / (4 * L)] for a pipe closed at one end. *)
Theorem fundamental_frequency_formula (v L : R) (t : type_tube) (HL : 0 < L) :
  calculer_frequence_fondamentale v L t = Ok (v / (coef t * L)).
Proof. destruct t; simpl; apply pydiv_nonzero; lra. Qed.

Lemma fundamental_frequency_formula_witness :
  0 < 1 /\ calculer_frequence_fondamentale 343.4 1 Ouvert = Ok (343.4 / (coef Ouvert * 1)).
Proof. split; [lra | apply (fundamental_frequency_formula 343.4 1 Ouvert); lra]. Defined.

(** C3: for every fundamental [f] and every [count >= 1], the harmonic
    series has [count] entries, the [n]-th one being [f * (n+1)] for an
    open pipe and [f * (2n+1)] for a closed one; with [count = 5] it is
    [[f; 2f; 3f; 4f; 5f]] resp. [[f; 3f; 5f; 7f; 9f]]. *)
Theorem harmonic_series_entries (f : R) (count : nat) (Hcount : (1 <= count)%nat) :
  (forall t, length (calculer_harmoniques f count t) = count) /\
  (forall n, (n < count)%nat -> nth n (calculer_harmoniques f count Ouvert) 0 = f * (INR n + 1)) /\
  (forall n, (n < count)%nat -> nth n (calculer_harmoniques f count Ferme) 0 = f * (2 * INR n + 1)) /\
  calculer_harmoniques f 5 Ouvert = [f; 2 * f; 3 * f; 4 * f; 5 * f] /\
  calculer_harmoniques f 5 Ferme = [f; 3 * f; 5 * f; 7 * f; 9 * f].
Proof.
  split; [| split; [| split; [| split]]].
  - intros []; simpl; now rewrite length_map, length_seq.
  - intros n Hn. exact (nth_map_seq0 (fun n => f * (INR n + 1)) count n Hn).
  - intros n Hn. exact (nth_map_seq0 (fun n => f * (2 * INR n + 1)) count n Hn).
  - unfold calculer_harmoniques; cbn [map seq INR].
    repeat (apply f_equal2; [lra |]); reflexivity.
  - unfold calculer_harmoniques; cbn [map seq INR].
    repeat (apply f_equal2; [lra |]); reflexivity.
Qed.

Lemma harmonic_series_entries_witness :
  (1 <= 5)%nat /\ length (calculer_harmoniques 171.7 5 Ferme) = 5%nat.
Proof. split; [lia | apply (proj1 (harmonic_series_entries 171.7 5 ltac:(lia)))]. Defined.

(** C9: for every fundamental [f > 0] and every [count >= 1], for both pipe
    types the harmonic series is strictly increasing and has exactly
    [count] entries. *)
Theorem harmonic_series_increasing (f : R) (count : nat) (t : type_tube)
  (Hf : 0 < f) (Hcount : (1 <= count)%nat) :
  StronglySorted Rlt (calculer_harmoniques f count t) /\
  length (calculer_harmoniques f count t) = count.
Proof.
  split.
  - destruct t; simpl; apply map_seq_strictly_sorted; intros i j Hij;
      apply lt_INR in Hij; nra.
  - destruct t; simpl; now rewrite length_map, length_seq.
Qed.

Lemma harmonic_series_increasing_witness :
  (0 < 171.7 /\ (1 <= 5)%nat) /\
  StronglySorted Rlt (calculer_harmoniques 171.7 5 Ouvert) /\
  length (calculer_harmoniques 171.7 5 Ouvert) = 5%nat.
Proof.
  split; [split; [lra | lia] |].
  apply (harmonic_series_increasing 171.7 5 Ouvert); [lra | lia].
Defined.

(** C10: with exactly one hole, the frequency does not depend on the pipe
    diameter. *)
Theorem one_hole_pipe_diameter_irrelevant (v L : R) (t : type_tube) (h : trou) (d1 d2 : R) :
  calculer_frequence_avec_trous v L t [h] d1 = calculer_frequence_avec_trous v L t [h] d2.
Proof. reflexivity. Qed.

(** C2: for every non-empty hole list, the code sorts the holes ascending
    by position (a permutation of the input) and returns the spec's
    formula: the open/closed formula applied to
    [first.position * length + 0.3 * first.diameter], plus, with more than
    one hole, the sum over the sorted holes of
    [(holeArea / pipeArea) * (1 - position) * length * 0.1]. *)
Theorem fundamental_with_holes_formula (v L : R) (t : type_tube) (holes : list trou)
  (D : R) (Hne : holes <> []) :
  Sorted pos_le (trier holes) /\ Permutation holes (trier holes) /\
  calculer_frequence_avec_trous v L t holes D = spec_fundamentalWithHoles v L t holes D.
Proof.
  split; [apply trier_sorted | split; [apply trier_perm |]].
  destruct holes as [|h hs]; [contradiction |].
  unfold calculer_frequence_avec_trous, spec_fundamentalWithHoles, longueur_effective.
  destruct (trier (h :: hs)) as [|first rest] eqn:E;
    [exfalso; exact (inserer_not_nil h (trier hs) E) |].
  cbn [getitem0 bind].
  destruct (Nat.ltb 1 (length (h :: hs))).
  - rewrite boucle_multi_sum, <- E. unfold spec_holeArea, spec_pipeArea.
    destruct (mapM _ _) as [terms|e]; cbn [bind]; [| reflexivity].
    rewrite Rplus_0_l. destruct t; reflexivity.
  - cbn [bind]. rewrite Rplus_0_r. destruct t; reflexivity.
Qed.

Lemma fundamental_with_holes_formula_witness :
  [mk_trou 0.5 0.01; mk_trou 0.25 0.012; mk_trou 0.75 0.008] <> [] /\
  trier [mk_trou 0.5 0.01; mk_trou 0.25 0.012; mk_trou 0.75 0.008] =
    [mk_trou 0.25 0.012; mk_trou 0.5 0.01; mk_trou 0.75 0.008] /\
  Nat.ltb 1 (length [mk_trou 0.5 0.01; mk_trou 0.25 0.012; mk_trou 0.75 0.008]) = true /\
  (Sorted pos_le (trier [mk_trou 0.5 0.01; mk_trou 0.25 0.012; mk_trou 0.75 0.008]) /\
   Permutation [mk_trou 0.5 0.01; mk_trou 0.25 0.012; mk_trou 0.75 0.008]
     (trier [mk_trou 0.5 0.01; mk_trou 0.25 0.012; mk_trou 0.75 0.008]) /\
   calculer_frequence_avec_trous 343.4 0.6 Ferme
     [mk_trou 0.5 0.01; mk_trou 0.25 0.012; mk_trou 0.75 0.008] 0.05 =
   spec_fundamentalWithHoles 343.4 0.6 Ferme
     [mk_trou 0.5 0.01; mk_trou 0.25 0.012; mk_trou 0.75 0.008] 0.05).
Proof.
  split; [discriminate |]. split.
  { unfold trier; cbn [fold_right inserer position].
    destruct (Rlt_dec 0.75 0.25); [lra |]. cbn [inserer position].
    destruct (Rlt_dec 0.25 0.5); [| lra]. cbn [inserer position].
    destruct (Rlt_dec 0.75 0.5); [lra |]. reflexivity. }
  split; [reflexivity |].
  apply (fundamental_with_holes_formula 343.4 0.6 Ferme
    [mk_trou 0.5 0.01; mk_trou 0.25 0.012; mk_trou 0.75 0.008] 0.05).
  discriminate.
Defined.

(** C8: with a single hole of diameter [0 < d < D], moving it from [p1]
    to [p2 > p1] (both in (0,1)) strictly increases the effective length
    and strictly decreases the frequency, for both pipe types. *)
Theorem one_hole_position_monotone (v L D d p1 p2 : R) (t : type_tube)
  (Hv : 0 < v) (HL : 0 < L) (Hd : 0 < d < D) (Hp : 0 < p1 < p2) (Hp2 : p2 < 1) :
  exists e1 e2 f1 f2,
    longueur_effective L [mk_trou p1 d] D = Ok e1 /\
    longueur_effective L [mk_trou p2 d] D = Ok e2 /\ e1 < e2 /\
    calculer_frequence_avec_trous v L t [mk_trou p1 d] D = Ok f1 /\
    calculer_frequence_avec_trous v L t [mk_trou p2 d] D = Ok f2 /\ f2 < f1.
Proof.
  set (e1 := p1 * L + 0.3 * d). set (e2 := p2 * L + 0.3 * d).
  assert (He1 : 0 < e1) by (unfold e1; nra).
  assert (He12 : e1 < e2) by (unfold e1, e2; nra).
  exists e1, e2, (v / (coef t * e1)), (v / (coef t * e2)).
  assert (Hc : 0 < coef t) by (destruct t; simpl; lra).
  split; [apply longueur_effective_un_trou |].
  split; [apply longueur_effective_un_trou |].
  split; [exact He12 |].
  unfold calculer_frequence_avec_trous. rewrite !longueur_effective_un_trou. cbn [bind position diametre].
  split; [destruct t; apply pydiv_nonzero; simpl in Hc |- *; nra |].
  split; [destruct t; apply pydiv_nonzero; simpl in Hc |- *; nra |].
  unfold Rdiv. apply Rmult_lt_compat_l; [exact Hv |].
  apply Rinv_lt_contravar.
  - apply Rmult_lt_0_compat; apply Rmult_lt_0_compat; lra.
  - apply Rmult_lt_compat_l; lra.
Qed.

Lemma one_hole_position_monotone_witness :
  exists e1 e2 f1 f2,
    longueur_effective 1 [mk_trou 0.25 0.01] 0.05 = Ok e1 /\
    longueur_effective 1 [mk_trou 0.5 0.01] 0.05 = Ok e2 /\ e1 < e2 /\
    calculer_frequence_avec_trous 343.4 1 Ferme [mk_trou 0.25 0.01] 0.05 = Ok f1 /\
    calculer_frequence_avec_trous 343.4 1 Ferme [mk_trou 0.5 0.01] 0.05 = Ok f2 /\ f2 < f1.
Proof. apply (one_hole_position_monotone 343.4 1 0.05 0.01 0.25 0.5 Ferme); lra. Defined.

(** C4 (as stated: fails for every length <= 0) is false: at length -1
    the function returns a (negative) frequency. *)
Lemma fundamental_frequency_negative_length_counterexample :
  ~ (forall v L t, L <= 0 -> echoue (calculer_frequence_fondamentale v L t)).
Proof.
  intros H. specialize (H 343.4 (-1) Ouvert ltac:(lra)).
  unfold calculer_frequence_fondamentale in H.
  rewrite pydiv_nonzero in H by lra. exact H.
Qed.

(** C4 (amended): the function checks nothing on the length: for every
    length [L <> 0] it returns [v / (2 * L)] resp. [v / (4 * L)], in
    particular a negative frequency when [L < 0 < v]. *)
Theorem fundamental_frequency_unguarded (v L : R) (t : type_tube) (HL : L <> 0) :
  calculer_frequence_fondamentale v L t = Ok (v / (coef t * L)) /\
  (0 < v -> L < 0 -> v / (coef t * L) < 0).
Proof.
  split.
  - destruct t; simpl; apply pydiv_nonzero; intro E; apply HL; lra.
  - intros Hv HLn. unfold Rdiv. apply Rmult_pos_neg; [exact Hv |].
    apply Rinv_lt_0_compat. destruct t; simpl; lra.
Qed.

Lemma fundamental_frequency_unguarded_witness :
  -1 <> 0 /\ calculer_frequence_fondamentale 343.4 (-1) Ferme = Ok (343.4 / (coef Ferme * -1)).
Proof. split; [lra | apply (fundamental_frequency_unguarded 343.4 (-1) Ferme); lra]. Defined.

(** C5 (as stated: fails whenever length <= 0, pipeDiameter <= 0 or a
    hole is at least as wide as the pipe) is false: a single hole of
    60 mm in a 50 mm pipe gives a frequency. *)
Lemma fundamental_with_holes_invalid_geometry_counterexample :
  ~ (forall v L t holes D,
       (L <= 0 \/ D <= 0 \/ exists h, In h holes /\ D <= diametre h) ->
       echoue (calculer_frequence_avec_trous v L t holes D)).
Proof.
  intros H.
  specialize (H 343.4 1 Ouvert [mk_trou 0.25 0.06] 0.05).
  assert (Hin : exists h, In h [mk_trou 0.25 0.06] /\ 0.05 <= diametre h)
    by (exists (mk_trou 0.25 0.06); split; [now left | simpl; lra]).
  specialize (H (or_intror (or_intror Hin))).
  unfold calculer_frequence_avec_trous in H. rewrite longueur_effective_un_trou in H.
  cbn [bind position diametre] in H. rewrite pydiv_nonzero in H by lra. exact H.
Qed.

(** C5 (amended): no geometry is checked: for every non-empty hole list
    with a single hole or a nonzero pipe diameter, an effective length [e]
    is computed without error, whatever the signs of length and pipe
    diameter and the hole diameters, and when [e <> 0] the frequency is the
    open/closed formula at [e]. *)
Theorem fundamental_with_holes_unguarded (v L D : R) (t : type_tube) (h : trou) (hs : list trou)
  (HD : hs = [] \/ D <> 0) :
  exists e, longueur_effective L (h :: hs) D = Ok e /\
    (e <> 0 -> calculer_frequence_avec_trous v L t (h :: hs) D = Ok (v / (coef t * e))).
Proof.
  assert (Hle : exists e, longueur_effective L (h :: hs) D = Ok e).
  { unfold longueur_effective.
    destruct (trier (h :: hs)) as [|first rest] eqn:E;
      [exfalso; exact (inserer_not_nil h (trier hs) E) |].
    cbn [getitem0 bind].
    destruct (Nat.ltb 1 (length (h :: hs))) eqn:Hlt.
    - destruct HD as [-> | HD]; [discriminate Hlt |].
      assert (Hs : PI * (D / 2) ^ 2 <> 0).
      { apply Rmult_integral_contrapositive_currified; [apply PI_neq0 |].
        apply pow_nonzero. intro E2; apply HD; lra. }
      destruct (boucle_multi_ok L _ 0 (first :: rest) Hs) as [r Hr].
      rewrite Hr. cbn [bind]. eexists; reflexivity.
    - cbn [bind]. eexists; reflexivity. }
  destruct Hle as [e He]. exists e. split; [exact He |].
  intros Hne. unfold calculer_frequence_avec_trous. rewrite He. cbn [bind].
  destruct t; simpl; apply pydiv_nonzero; intro E; apply Hne; lra.
Qed.

Lemma fundamental_with_holes_unguarded_witness :
  (([] : list trou) = [] \/ 0.05 <> 0) /\
  exists e, longueur_effective 1 [mk_trou 0.25 0.06] 0.05 = Ok e /\
    (e <> 0 -> calculer_frequence_avec_trous 343.4 1 Ouvert [mk_trou 0.25 0.06] 0.05 =
               Ok (343.4 / (coef Ouvert * e))).
Proof.
  split; [left; reflexivity |].
  apply (fundamental_with_holes_unguarded 343.4 1 0.05 Ouvert (mk_trou 0.25 0.06) []).
  left; reflexivity.
Defined.

(** C6 (as stated: fails with a domain error below -273.15 degrees) is
    false: [np.sqrt] of a negative number returns NaN and no error is
    raised. *)
Lemma speed_of_sound_below_absolute_zero_counterexample :
  ~ (forall T, 1 + T / 273.15 < 0 -> echoue (vitesse_son T)).
Proof.
  intros H. specialize (H (-300) ltac:(lra)). exact H.
Qed.

(** C6 (amended): below -273.15 degrees the speed of sound is NaN, returned
    without raising. *)
Theorem speed_of_sound_below_absolute_zero_nan (T : R) (HT : 1 + T / 273.15 < 0) :
  vitesse_son T = Ok NaN.
Proof.
  unfold vitesse_son, np_sqrt. destruct (Rlt_dec (1 + T / 273.15) 0); [reflexivity | contradiction].
Qed.

Lemma speed_of_sound_below_absolute_zero_nan_witness :
  1 + (-300) / 273.15 < 0 /\ vitesse_son (-300) = Ok NaN.
Proof. split; [lra | apply speed_of_sound_below_absolute_zero_nan; lra]. Defined.

(** C7 (as stated: within 0.1 of 343.4) is false: the formula gives about
    343.21 at 20 degrees. *)
Lemma speed_of_sound_20_counterexample :
  ~ (exists r, vitesse_son 20 = Ok (Fin r) /\ Rabs (r - 343.4) <= 0.1).
Proof.
  intros [r [Hv Habs]]. rewrite vitesse_son_20 in Hv. injection Hv as <-.
  pose proof sqrt_20_bounds as Hb.
  unfold Rabs in Habs. destruct (Rcase_abs _); lra.
Qed.

(** C7 (amended): [vitesse_son 20] lies strictly between 343.21 and 343.23. *)
Theorem speed_of_sound_20_value :
  exists r, vitesse_son 20 = Ok (Fin r) /\ 343.21 < r < 343.23.
Proof.
  exists (331.3 * sqrt (1 + 20 / 273.15)). split; [apply vitesse_son_20 |].
  pose proof sqrt_20_bounds. lra.
Qed.

(** ** Further properties of the code *)

(** Sum of the numerators of the multi-hole terms. *)
Definition somme_num (L : R) (trous : list trou) : R :=
  fold_right (fun t s => PI * (diametre t / 2) ^ 2 * (1 - position t) * L * 0.1 + s) 0 trous.

Lemma boucle_multi_ferme (L section_tube acc : R) (trous : list trou) :
  section_tube <> 0 ->
  boucle_multi L section_tube acc trous = Ok (acc + somme_num L trous / section_tube).
Proof.
  intros Hs. revert acc. induction trous as [|t trous IH]; intros acc; cbn [boucle_multi].
  - simpl. f_equal. field. exact Hs.
  - rewrite pydiv_nonzero by exact Hs. cbn [bind]. rewrite IH. f_equal.
    simpl. field. exact Hs.
Qed.

(** Holes whose term in the multi-hole correction is non-negative,
    resp. positive. *)
Definition trou_dans_tuyau (t : trou) : Prop := 0 <= position t <= 1 /\ 0 < diametre t.

Lemma somme_num_nonneg (L : R) (trous : list trou) :
  0 <= L -> Forall trou_dans_tuyau trous -> 0 <= somme_num L trous.
Proof.
  intros HL Hall. induction Hall as [|t trous [Hp Hd] _ IH]; simpl; [lra |].
  assert (0 <= PI * (diametre t / 2) ^ 2 * (1 - position t) * L * 0.1); [| lra].
  pose proof PI_RGT_0.
  apply Rmult_le_pos; [| lra]. apply Rmult_le_pos; [| exact HL].
  apply Rmult_le_pos; [| lra]. apply Rmult_le_pos; [lra | apply pow_le; lra].
Qed.

Lemma somme_num_pos (L : R) (t : trou) (trous : list trou) :
  0 < L -> position t < 1 -> Forall trou_dans_tuyau (t :: trous) -> 0 < somme_num L (t :: trous).
Proof.
  intros HL Hp1 Hall. inversion Hall as [|? ? [Hp Hd] Hrest]; subst.
  pose proof (somme_num_nonneg L trous ltac:(lra) Hrest). simpl.
  assert (0 < PI * (diametre t / 2) ^ 2 * (1 - position t) * L * 0.1); [| lra].
  pose proof PI_RGT_0.
  apply Rmult_lt_0_compat; [| lra]. apply Rmult_lt_0_compat; [| exact HL].
  apply Rmult_lt_0_compat; [| lra]. apply Rmult_lt_0_compat; [lra | apply pow_lt; lra].
Qed.

Lemma section_pos (D : R) : 0 < D -> 0 < PI * (D / 2) ^ 2.
Proof. intros HD. pose proof PI_RGT_0. apply Rmult_lt_0_compat; [lra | apply pow_lt; lra]. Qed.

(** The effective length in closed form, for a non-empty list and a
    positive pipe diameter. *)
Lemma longueur_effective_ferme (L D : R) (trous : list trou) (premier : trou) (reste : list trou) :
  0 < D -> trier trous = premier :: reste ->
  longueur_effective L trous D =
  Ok (position premier * L + (0.3 * diametre premier +
        (if Nat.ltb 1 (length trous) then somme_num L (trier trous) / (PI * (D / 2) ^ 2) else 0))).
Proof.
  intros HD E. unfold longueur_effective. rewrite E. cbn [getitem0 bind].
  destruct (Nat.ltb 1 (length trous)).
  - rewrite boucle_multi_ferme by (pose proof (section_pos D HD); lra).
    cbn [bind]. rewrite <- E, Rplus_0_l. reflexivity.
  - cbn [bind]. rewrite Rplus_0_r. reflexivity.
Qed.

Lemma trier_nonvide (t : trou) (trous : list trou) :
  exists premier reste, trier (t :: trous) = premier :: reste.
Proof.
  destruct (trier (t :: trous)) as [|p r] eqn:E; [| now exists p, r].
  exfalso. exact (inserer_not_nil t (trier trous) E).
Qed.

Lemma trier_in (x : trou) (trous : list trou) : In x (trier trous) <-> In x trous.
Proof. split; apply Permutation_in; [symmetry |]; apply trier_perm. Qed.

(** A lower bound of the effective length: distance to the nearest hole
    plus [0.3] times its diameter. *)
Lemma longueur_effective_minoree (L D : R) (trous : list trou) :
  0 <= L -> 0 < D -> trous <> [] -> Forall trou_dans_tuyau trous ->
  exists premier reste e,
    trier trous = premier :: reste /\ longueur_effective L trous D = Ok e /\
    position premier * L + 0.3 * diametre premier <= e.
Proof.
  intros HL HD Hne Hall. destruct trous as [|t ts]; [contradiction |].
  destruct (trier_nonvide t ts) as [p [r E]].
  exists p, r. eexists. split; [exact E | split; [apply (longueur_effective_ferme L D (t :: ts) p r HD E) |]].
  destruct (Nat.ltb 1 _); [| lra].
  assert (0 <= somme_num L (trier (t :: ts)) / (PI * (D / 2) ^ 2)); [| lra].
  unfold Rdiv. apply Rmult_le_pos; [| left; apply Rinv_0_lt_compat, section_pos; exact HD].
  apply somme_num_nonneg; [exact HL |].
  apply Forall_forall. intros x Hx. apply (trier_in x (t :: ts)) in Hx. rewrite Forall_forall in Hall. now apply Hall.
Qed.

(** The frequency from a positive effective length. *)
Lemma frequence_de_longueur (v L D : R) (t : type_tube) (trous : list trou) (e : R) :
  trous <> [] -> longueur_effective L trous D = Ok e -> 0 < e ->
  calculer_frequence_avec_trous v L t trous D = Ok (v / (coef t * e)).
Proof.
  intros Hne He Hpos. destruct trous as [|h hs]; [contradiction |].
  unfold calculer_frequence_avec_trous. rewrite He. cbn [bind].
  destruct t; apply pydiv_nonzero; simpl; lra.
Qed.

Lemma frequence_decroissante (v c e1 e2 : R) :
  0 < v -> 0 < c -> 0 < e1 < e2 -> v / (c * e2) < v / (c * e1).
Proof.
  intros Hv Hc He. unfold Rdiv. apply Rmult_lt_compat_l; [exact Hv |].
  apply Rinv_lt_contravar; [apply Rmult_lt_0_compat; apply Rmult_lt_0_compat |
    apply Rmult_lt_compat_l]; lra.
Qed.

Lemma coef_pos (t : type_tube) : 0 < coef t.
Proof. destruct t; simpl; lra. Qed.

Lemma construire_trous_bornes (diametre_mm : R) (saisies : list (R * R)) :
  Forall (saisie_valide diametre_mm) saisies ->
  Forall (fun t => 0.05 <= position t <= 0.95 /\ 0 < diametre t < diametre_mm / 1000)
    (construire_trous saisies).
Proof.
  intros Hs. unfold construire_trous. apply Forall_map.
  eapply Forall_impl; [| exact Hs]. intros [p d] [Hp Hd]. simpl. lra.
Qed.

Lemma premier_minimal (trous : list trou) (premier : trou) (reste : list trou) :
  trier trous = premier :: reste ->
  In premier trous /\ forall h, In h trous -> position premier <= position h.
Proof.
  intros E. split; [apply trier_in; rewrite E; now left |].
  intros h Hh. apply trier_in in Hh. rewrite E in Hh.
  pose proof (trier_sorted trous) as Hs. rewrite E in Hs.
  apply Sorted_StronglySorted in Hs; [| unfold Relations_1.Transitive, pos_le; intros; lra].
  apply StronglySorted_inv in Hs as [_ Hall].
  destruct Hh as [<- | Hh]; [unfold pos_le; lra |].
  rewrite Forall_forall in Hall. exact (Hall h Hh).
Qed.

Lemma vitesse_son_positive (temperature : R) :
  -273.15 < temperature ->
  vitesse_son temperature = Ok (Fin (331.3 * sqrt (1 + temperature / 273.15))) /\
  0 < 331.3 * sqrt (1 + temperature / 273.15).
Proof.
  intros HT. assert (Hpos : 0 < 1 + temperature / 273.15) by lra.
  split.
  - unfold vitesse_son, np_sqrt. destruct (Rlt_dec _ 0); [lra | reflexivity].
  - apply Rmult_lt_0_compat; [lra | apply sqrt_lt_R0; exact Hpos].
Qed.

(** X1: the holes built from the widget values (positions 5-95 %,
    diameters from 1 mm to the pipe diameter minus 1 mm) have a position
    in [0.05, 0.95] and a diameter strictly between 0 and the pipe
    diameter, one hole per widget entry. *)
Theorem trous_saisis_valides (diametre_mm : R) (saisies : list (R * R))
  (Hs : Forall (saisie_valide diametre_mm) saisies) :
  length (construire_trous saisies) = length saisies /\
  Forall (fun t => 0.05 <= position t <= 0.95 /\ 0 < diametre t < diametre_mm / 1000)
    (construire_trous saisies).
Proof.
  split; [apply length_map | apply construire_trous_bornes; exact Hs].
Qed.

Lemma trous_saisis_valides_witness :
  Forall (saisie_valide 50) [(25, 10); (35, 49)] /\
  length (construire_trous [(25, 10); (35, 49)]) = 2%nat.
Proof.
  assert (H : Forall (saisie_valide 50) [(25, 10); (35, 49)])
    by (repeat constructor; simpl; lra).
  split; [exact H | exact (proj1 (trous_saisis_valides 50 _ H))].
Defined.

(** X2: for every input the widgets accept (temperature -20..50 degrees C,
    length 100..10000 mm, diameter 5..500 mm, holes as in X1), the speed of
    sound is a positive number, the fundamental is computed without error
    and is positive, and the five harmonics are strictly increasing. *)
Theorem resultats_app_valides (temperature longueur_mm diametre_mm : R) (t : type_tube)
  (saisies : list (R * R))
  (HT : -20 <= temperature <= 50) (HL : 100 <= longueur_mm <= 10000)
  (HD : 5 <= diametre_mm <= 500) (Hs : Forall (saisie_valide diametre_mm) saisies) :
  exists v f hs,
    vitesse_son temperature = Ok (Fin v) /\ 0 < v /\
    resultats_app v (longueur_mm / 1000) t (construire_trous saisies) (diametre_mm / 1000) = Ok (f, hs) /\
    0 < f /\ StronglySorted Rlt hs /\ length hs = 5%nat.
Proof.
  destruct (vitesse_son_positive temperature ltac:(lra)) as [Hv Hvpos].
  set (v := 331.3 * sqrt (1 + temperature / 273.15)) in *.
  assert (Hf : exists f, frequence_app v (longueur_mm / 1000) t (construire_trous saisies)
                          (diametre_mm / 1000) = Ok f /\ 0 < f).
  { unfold frequence_app.
    destruct (Nat.ltb 0 (length (construire_trous saisies))) eqn:Hn.
    - assert (Hne : construire_trous saisies <> []).
      { intros E. rewrite E in Hn. discriminate Hn. }
      pose proof (construire_trous_bornes _ _ Hs) as Hb.
      assert (Hin : Forall trou_dans_tuyau (construire_trous saisies)).
      { eapply Forall_impl; [| exact Hb]. intros h Hh. unfold trou_dans_tuyau. lra. }
      destruct (longueur_effective_minoree (longueur_mm / 1000) (diametre_mm / 1000)
                  (construire_trous saisies) ltac:(lra) ltac:(lra) Hne Hin)
        as [p [r [e [E [He Hle]]]]].
      destruct (premier_minimal _ _ _ E) as [Hp _].
      rewrite Forall_forall in Hb. destruct (Hb p Hp) as [Hpp Hpd].
      assert (Hepos : 0 < e) by nra.
      exists (v / (coef t * e)). split; [now apply frequence_de_longueur |].
      pose proof (coef_pos t). apply Rdiv_lt_0_compat; [exact Hvpos | nra].
    - pose proof (coef_pos t).
      exists (v / (coef t * (longueur_mm / 1000))). split.
      + destruct t; apply pydiv_nonzero; simpl; lra.
      + apply Rdiv_lt_0_compat; [exact Hvpos | nra]. }
  destruct Hf as [f [Hf Hfpos]].
  exists v, f, (calculer_harmoniques f 5 t).
  split; [exact Hv | split; [exact Hvpos | split]].
  - unfold resultats_app. rewrite Hf. reflexivity.
  - split; [exact Hfpos | split].
    + destruct t; unfold calculer_harmoniques; apply map_seq_strictly_sorted; intros i j Hij;
        apply lt_INR in Hij; nra.
    + destruct t; reflexivity.
Qed.

Lemma resultats_app_valides_witness :
  exists v f hs,
    vitesse_son 20 = Ok (Fin v) /\ 0 < v /\
    resultats_app v (1000 / 1000) Ferme (construire_trous [(25, 10)]) (50 / 1000) = Ok (f, hs) /\
    0 < f /\ StronglySorted Rlt hs /\ length hs = 5%nat.
Proof.
  apply (resultats_app_valides 20 1000 50 Ferme [(25, 10)]); try lra.
  repeat constructor; simpl; lra.
Defined.

(** X3: for a positive length and pipe diameter and holes with a position
    in [0, 1] and a positive diameter, the effective length is computed
    without error and is at least the distance from the mouth to the
    nearest hole plus [0.3] times that hole's diameter, so strictly more
    than that distance. *)
Theorem longueur_effective_au_moins_premier_trou (L D : R) (trous : list trou)
  (HL : 0 <= L) (HD : 0 < D) (Hne : trous <> []) (Hall : Forall trou_dans_tuyau trous) :
  exists premier e,
    In premier trous /\ (forall h, In h trous -> position premier <= position h) /\
    longueur_effective L trous D = Ok e /\
    position premier * L + 0.3 * diametre premier <= e /\ position premier * L < e.
Proof.
  destruct (longueur_effective_minoree L D trous HL HD Hne Hall) as [p [r [e [E [He Hle]]]]].
  destruct (premier_minimal _ _ _ E) as [Hp Hmin].
  exists p, e. split; [exact Hp | split; [exact Hmin | split; [exact He | split; [exact Hle |]]]].
  rewrite Forall_forall in Hall. destruct (Hall p Hp) as [_ Hd]. lra.
Qed.

Lemma longueur_effective_au_moins_premier_trou_witness :
  exists premier e,
    In premier [mk_trou 0.5 0.01; mk_trou 0.25 0.01] /\
    (forall h, In h [mk_trou 0.5 0.01; mk_trou 0.25 0.01] -> position premier <= position h) /\
    longueur_effective 1 [mk_trou 0.5 0.01; mk_trou 0.25 0.01] 0.05 = Ok e /\
    position premier * 1 + 0.3 * diametre premier <= e /\ position premier * 1 < e.
Proof.
  apply longueur_effective_au_moins_premier_trou; try lra; [discriminate |].
  repeat constructor; simpl; lra.
Defined.

(** X4: for every input, the pipe closed at one end gives half the
    frequency of the open pipe, and raises exactly when the open pipe
    raises; with or without holes. *)
Theorem ferme_moitie_ouvert (v L D : R) (trous : list trou) :
  calculer_frequence_fondamentale v L Ferme =
    (let! f := calculer_frequence_fondamentale v L Ouvert in Ok (f / 2)) /\
  calculer_frequence_avec_trous v L Ferme trous D =
    (let! f := calculer_frequence_avec_trous v L Ouvert trous D in Ok (f / 2)).
Proof.
  assert (Hdiv : forall x, pydiv v (4 * x) = let! f := pydiv v (2 * x) in Ok (f / 2)).
  { intros x. unfold pydiv.
    destruct (Req_EM_T (4 * x) 0), (Req_EM_T (2 * x) 0); try lra; cbn [bind]; [reflexivity |].
    f_equal. field. lra. }
  split; [apply Hdiv |].
  destruct trous as [|h hs]; [apply Hdiv |].
  unfold calculer_frequence_avec_trous.
  destruct (longueur_effective L (h :: hs) D) as [e|e]; cbn [bind]; [apply Hdiv | reflexivity].
Qed.

(** X5: the speed of sound is positive and strictly increasing in the
    temperature above -273.15 degrees C. *)
Theorem vitesse_son_croissante (T1 T2 : R) (HT : -273.15 < T1 < T2) :
  exists v1 v2, vitesse_son T1 = Ok (Fin v1) /\ vitesse_son T2 = Ok (Fin v2) /\ 0 < v1 < v2.
Proof.
  destruct (vitesse_son_positive T1 ltac:(lra)) as [H1 P1].
  destruct (vitesse_son_positive T2 ltac:(lra)) as [H2 P2].
  eexists; eexists; split; [exact H1 | split; [exact H2 | split; [exact P1 |]]].
  apply Rmult_lt_compat_l; [lra |]. apply sqrt_lt_1_alt. split; [lra |].
  unfold Rdiv. apply Rplus_lt_compat_l, Rmult_lt_compat_r; [apply Rinv_0_lt_compat |]; lra.
Qed.

Lemma vitesse_son_croissante_witness :
  exists v1 v2, vitesse_son (-20) = Ok (Fin v1) /\ vitesse_son 50 = Ok (Fin v2) /\ 0 < v1 < v2.
Proof. apply vitesse_son_croissante; lra. Defined.

(** Evaluates [trier] on concrete holes: settles each comparison by [lra]. *)
Ltac calcul_trier :=
  unfold trier; cbn [fold_right inserer position];
  repeat (match goal with
          | |- context [Rlt_dec ?a ?b] => destruct (Rlt_dec a b); try (exfalso; lra)
          end; cbn [inserer position]);
  try reflexivity.

Definition pos_lt (a b : trou) : Prop := position a < position b.

Lemma trier_nil (trous : list trou) : trier trous = [] -> trous = [].
Proof.
  intros E. apply Permutation_nil. rewrite <- E. symmetry. apply trier_perm.
Qed.

Lemma sorted_distinct_strict (l : list trou) :
  Sorted pos_le l -> NoDup (map position l) -> StronglySorted pos_lt l.
Proof.
  intros Hs. apply Sorted_StronglySorted in Hs; [| unfold Relations_1.Transitive, pos_le; intros; lra].
  induction Hs as [|a l Hs IH Hall]; intros Hnd; constructor.
  - apply IH. simpl in Hnd. now inversion Hnd.
  - simpl in Hnd. inversion Hnd as [|? ? Hnin _]; subst.
    rewrite Forall_forall in Hall |- *. intros x Hx. unfold pos_lt.
    destruct (Rle_lt_or_eq _ _ (Hall x Hx)) as [Hlt | Heq]; [exact Hlt |].
    exfalso. apply Hnin. rewrite Heq. now apply in_map.
Qed.

Lemma strict_perm_unique (l1 l2 : list trou) :
  StronglySorted pos_lt l1 -> StronglySorted pos_lt l2 -> Permutation l1 l2 -> l1 = l2.
Proof.
  revert l2. induction l1 as [|a l1 IH]; intros l2 H1 H2 Hp.
  - symmetry. now apply Permutation_nil.
  - destruct l2 as [|b l2]; [exfalso; apply Permutation_sym, Permutation_nil_cons in Hp; exact Hp |].
    apply StronglySorted_inv in H1 as [H1 A1]. apply StronglySorted_inv in H2 as [H2 A2].
    rewrite Forall_forall in A1, A2.
    assert (a = b) as <-.
    { destruct (Permutation_in a Hp (or_introl eq_refl)) as [Hba|Ha]; [congruence |].
      assert (Hb : In b (a :: l1)) by (apply (Permutation_in b (Permutation_sym Hp)); now left).
      destruct Hb as [-> | Hb]; [reflexivity |].
      pose proof (A1 b Hb). pose proof (A2 a Ha). unfold pos_lt in *. lra. }
    f_equal. apply IH; [exact H1 | exact H2 |]. exact (Permutation_cons_inv Hp).
Qed.

Lemma trier_perm_distinct (l1 l2 : list trou) :
  NoDup (map position l1) -> Permutation l1 l2 -> trier l1 = trier l2.
Proof.
  intros Hnd Hp. apply strict_perm_unique.
  - apply sorted_distinct_strict; [apply trier_sorted |].
    eapply Permutation_NoDup; [apply Permutation_map, trier_perm | exact Hnd].
  - apply sorted_distinct_strict; [apply trier_sorted |].
    eapply Permutation_NoDup; [| exact Hnd].
    apply Permutation_map. etransitivity; [exact Hp | apply trier_perm].
  - etransitivity; [symmetry; apply trier_perm |]. etransitivity; [exact Hp | apply trier_perm].
Qed.

(** X6: ties are broken by input order: the hole the code treats as the
    first one is, among the holes of smallest position, the earliest in
    the input (every hole before it is strictly farther from the mouth,
    every hole after it is at least as far). *)
Theorem premier_trou_stable (trous : list trou) (premier : trou) (reste : list trou)
  (E : trier trous = premier :: reste) :
  exists avant apres, trous = avant ++ premier :: apres /\
    Forall (fun h => position premier < position h) avant /\
    Forall (fun h => position premier <= position h) apres.
Proof.
  revert premier reste E. induction trous as [|x l IH]; intros premier reste E; [discriminate E |].
  cbn [trier fold_right] in E. fold (trier l) in E.
  destruct (trier l) as [|y s] eqn:El.
  - apply trier_nil in El. subst l. cbn [inserer] in E. injection E as <- _.
    exists [], []. repeat split; constructor.
  - destruct (premier_minimal l y s El) as [_ Hmin].
    cbn [inserer] in E. destruct (Rlt_dec (position y) (position x)) as [Hlt | Hge].
    + injection E as <- _. destruct (IH y s eq_refl) as [av [ap [Hl [Hav Hap]]]].
      exists (x :: av), ap. rewrite Hl. split; [reflexivity |]. split; [| exact Hap].
      constructor; [exact Hlt | exact Hav].
    + injection E as <- _. exists [], l. split; [reflexivity |]. split; [constructor |].
      apply Forall_forall. intros h Hh. pose proof (Hmin h Hh). lra.
Qed.

Lemma premier_trou_stable_witness :
  trier [mk_trou 0.5 0.01; mk_trou 0.25 0.02; mk_trou 0.25 0.03] =
    [mk_trou 0.25 0.02; mk_trou 0.25 0.03; mk_trou 0.5 0.01] /\
  exists avant apres,
    [mk_trou 0.5 0.01; mk_trou 0.25 0.02; mk_trou 0.25 0.03] = avant ++ mk_trou 0.25 0.02 :: apres /\
    Forall (fun h => position (mk_trou 0.25 0.02) < position h) avant /\
    Forall (fun h => position (mk_trou 0.25 0.02) <= position h) apres.
Proof.
  assert (E : trier [mk_trou 0.5 0.01; mk_trou 0.25 0.02; mk_trou 0.25 0.03] =
              [mk_trou 0.25 0.02; mk_trou 0.25 0.03; mk_trou 0.5 0.01]) by calcul_trier.
  split; [exact E | exact (premier_trou_stable _ _ _ E)].
Defined.

(** X7: when the holes have pairwise distinct positions, the order in
    which they are given does not change the frequency. *)
Theorem frequence_independante_ordre (v L D : R) (t : type_tube) (trous1 trous2 : list trou)
  (Hnd : NoDup (map position trous1)) (Hp : Permutation trous1 trous2) :
  calculer_frequence_avec_trous v L t trous1 D = calculer_frequence_avec_trous v L t trous2 D.
Proof.
  pose proof (trier_perm_distinct _ _ Hnd Hp) as Etr.
  pose proof (Permutation_length Hp) as Elen.
  destruct trous1 as [|h1 t1], trous2 as [|h2 t2];
    [reflexivity | discriminate Elen | discriminate Elen |].
  unfold calculer_frequence_avec_trous, longueur_effective.
  rewrite Etr, Elen. reflexivity.
Qed.

Lemma frequence_independante_ordre_witness :
  NoDup (map position [mk_trou 0.25 0.01; mk_trou 0.5 0.02]) /\
  calculer_frequence_avec_trous 343.4 1 Ouvert [mk_trou 0.25 0.01; mk_trou 0.5 0.02] 0.05 =
  calculer_frequence_avec_trous 343.4 1 Ouvert [mk_trou 0.5 0.02; mk_trou 0.25 0.01] 0.05.
Proof.
  assert (Hnd : NoDup (map position [mk_trou 0.25 0.01; mk_trou 0.5 0.02])).
  { simpl. constructor; [intros [H | []]; lra | constructor; [intros [] | constructor]]. }
  split; [exact Hnd |]. apply frequence_independante_ordre; [exact Hnd | apply perm_swap].
Defined.

Lemma somme_num_pos_trie (L : R) (trous : list trou) (premier : trou) (reste : list trou) :
  0 < L -> Forall trou_dans_tuyau trous -> Forall (fun h => position h < 1) trous ->
  trier trous = premier :: reste -> 0 < somme_num L (trier trous).
Proof.
  intros HL Hall H1 E.
  destruct (premier_minimal _ _ _ E) as [Hp _].
  rewrite E. apply somme_num_pos; [exact HL | rewrite Forall_forall in H1; now apply H1 |].
  rewrite <- E. apply Forall_forall. intros x Hx. apply (trier_in x trous) in Hx.
  rewrite Forall_forall in Hall. now apply Hall.
Qed.

(** X8: adding a second hole farther from the mouth than the first (both
    inside the pipe, positive diameters, positive length and pipe
    diameter) strictly lengthens the effective length and strictly lowers
    the frequency, whichever of the two holes is given first. *)
Theorem second_trou_allonge (v L D : R) (t : type_tube) (h1 h2 : trou)
  (Hv : 0 < v) (HL : 0 < L) (HD : 0 < D)
  (Hp : 0 < position h1 < position h2) (Hp2 : position h2 < 1)
  (Hd1 : 0 < diametre h1) (Hd2 : 0 < diametre h2) :
  exists e1 e2 f1 f2,
    longueur_effective L [h1] D = Ok e1 /\
    longueur_effective L [h1; h2] D = Ok e2 /\ longueur_effective L [h2; h1] D = Ok e2 /\
    e1 < e2 /\
    calculer_frequence_avec_trous v L t [h1] D = Ok f1 /\
    calculer_frequence_avec_trous v L t [h1; h2] D = Ok f2 /\
    calculer_frequence_avec_trous v L t [h2; h1] D = Ok f2 /\ f2 < f1.
Proof.
  assert (E12 : trier [h1; h2] = [h1; h2]) by calcul_trier.
  assert (E21 : trier [h2; h1] = [h1; h2]) by calcul_trier.
  assert (Hall : Forall trou_dans_tuyau [h1; h2])
    by (repeat constructor; unfold trou_dans_tuyau; lra).
  assert (H1 : Forall (fun h => position h < 1) [h1; h2]) by (repeat constructor; lra).
  pose proof (somme_num_pos_trie L _ _ _ HL Hall H1 E12) as HN. rewrite E12 in HN.
  pose proof (section_pos D HD) as HS.
  set (e1 := position h1 * L + 0.3 * diametre h1).
  set (e2 := position h1 * L + (0.3 * diametre h1 + somme_num L [h1; h2] / (PI * (D / 2) ^ 2))).
  assert (He1 : 0 < e1) by (unfold e1; nra).
  assert (He12 : e1 < e2).
  { unfold e1, e2. assert (0 < somme_num L [h1; h2] / (PI * (D / 2) ^ 2)); [| lra].
    apply Rdiv_lt_0_compat; assumption. }
  assert (L1 : longueur_effective L [h1] D = Ok e1) by apply longueur_effective_un_trou.
  assert (L12 : longueur_effective L [h1; h2] D = Ok e2).
  { rewrite (longueur_effective_ferme L D [h1; h2] h1 [h2] HD E12), E12. reflexivity. }
  assert (L21 : longueur_effective L [h2; h1] D = Ok e2).
  { rewrite (longueur_effective_ferme L D [h2; h1] h1 [h2] HD E21), E21. reflexivity. }
  pose proof (coef_pos t).
  exists e1, e2, (v / (coef t * e1)), (v / (coef t * e2)).
  split; [exact L1 | split; [exact L12 | split; [exact L21 | split; [exact He12 |]]]].
  split; [apply frequence_de_longueur; [discriminate | exact L1 | exact He1] |].
  split; [apply frequence_de_longueur; [discriminate | exact L12 | lra] |].
  split; [apply frequence_de_longueur; [discriminate | exact L21 | lra] |].
  apply frequence_decroissante; lra.
Qed.

Lemma second_trou_allonge_witness :
  exists e1 e2 f1 f2,
    longueur_effective 1 [mk_trou 0.25 0.01] 0.05 = Ok e1 /\
    longueur_effective 1 [mk_trou 0.25 0.01; mk_trou 0.5 0.01] 0.05 = Ok e2 /\
    longueur_effective 1 [mk_trou 0.5 0.01; mk_trou 0.25 0.01] 0.05 = Ok e2 /\
    e1 < e2 /\
    calculer_frequence_avec_trous 343.4 1 Ouvert [mk_trou 0.25 0.01] 0.05 = Ok f1 /\
    calculer_frequence_avec_trous 343.4 1 Ouvert [mk_trou 0.25 0.01; mk_trou 0.5 0.01] 0.05 = Ok f2 /\
    calculer_frequence_avec_trous 343.4 1 Ouvert [mk_trou 0.5 0.01; mk_trou 0.25 0.01] 0.05 = Ok f2 /\
    f2 < f1.
Proof. apply second_trou_allonge; simpl; lra. Defined.

(** X9: with two or more holes inside the pipe (positions in [0, 1),
    positive diameters) and a positive length, a wider pipe gives a
    strictly shorter effective length and a strictly higher frequency. *)
Theorem diametre_tuyau_monotone (v L D1 D2 : R) (t : type_tube) (h1 h2 : trou) (reste : list trou)
  (Hv : 0 < v) (HL : 0 < L) (HD : 0 < D1 < D2)
  (Hall : Forall trou_dans_tuyau (h1 :: h2 :: reste))
  (H1 : Forall (fun h => position h < 1) (h1 :: h2 :: reste)) :
  exists e1 e2 f1 f2,
    longueur_effective L (h1 :: h2 :: reste) D1 = Ok e1 /\
    longueur_effective L (h1 :: h2 :: reste) D2 = Ok e2 /\ e2 < e1 /\
    calculer_frequence_avec_trous v L t (h1 :: h2 :: reste) D1 = Ok f1 /\
    calculer_frequence_avec_trous v L t (h1 :: h2 :: reste) D2 = Ok f2 /\ f1 < f2.
Proof.
  set (trous := h1 :: h2 :: reste).
  destruct (trier_nonvide h1 (h2 :: reste)) as [p [r E]]. fold trous in E.
  pose proof (somme_num_pos_trie L trous p r HL Hall H1 E) as HN.
  set (N := somme_num L (trier trous)) in HN.
  destruct (premier_minimal _ _ _ E) as [Hp _].
  rewrite Forall_forall in Hall. destruct (Hall p Hp) as [Hpp Hpd].
  pose proof (section_pos D1 ltac:(lra)) as HS1.
  assert (HS12 : PI * (D1 / 2) ^ 2 < PI * (D2 / 2) ^ 2).
  { apply Rmult_lt_compat_l; [exact PI_RGT_0 |]. simpl. nra. }
  set (base := position p * L + 0.3 * diametre p).
  set (e1 := base + N / (PI * (D1 / 2) ^ 2)).
  set (e2 := base + N / (PI * (D2 / 2) ^ 2)).
  assert (Hbase : 0 < base) by (unfold base; nra).
  assert (Hq2 : 0 < N / (PI * (D2 / 2) ^ 2)) by (apply Rdiv_lt_0_compat; lra).
  assert (He21 : e2 < e1).
  { unfold e1, e2. apply Rplus_lt_compat_l. unfold Rdiv. apply Rmult_lt_compat_l; [exact HN |].
    apply Rinv_lt_contravar; [apply Rmult_lt_0_compat |]; lra. }
  assert (He2 : 0 < e2) by (unfold e2; lra).
  assert (L1 : longueur_effective L trous D1 = Ok e1).
  { rewrite (longueur_effective_ferme L D1 trous p r ltac:(lra) E).
    replace (Nat.ltb 1 (length trous)) with true by reflexivity.
    f_equal. unfold e1, base, N. ring. }
  assert (L2 : longueur_effective L trous D2 = Ok e2).
  { rewrite (longueur_effective_ferme L D2 trous p r ltac:(lra) E).
    replace (Nat.ltb 1 (length trous)) with true by reflexivity.
    f_equal. unfold e2, base, N. ring. }
  pose proof (coef_pos t).
  exists e1, e2, (v / (coef t * e1)), (v / (coef t * e2)).
  split; [exact L1 | split; [exact L2 | split; [exact He21 |]]].
  split; [apply frequence_de_longueur; [discriminate | exact L1 | lra] |].
  split; [apply frequence_de_longueur; [discriminate | exact L2 | lra] |].
  apply frequence_decroissante; lra.
Qed.

Lemma diametre_tuyau_monotone_witness :
  exists e1 e2 f1 f2,
    longueur_effective 1 [mk_trou 0.25 0.01; mk_trou 0.5 0.01] 0.05 = Ok e1 /\
    longueur_effective 1 [mk_trou 0.25 0.01; mk_trou 0.5 0.01] 0.1 = Ok e2 /\ e2 < e1 /\
    calculer_frequence_avec_trous 343.4 1 Ferme [mk_trou 0.25 0.01; mk_trou 0.5 0.01] 0.05 = Ok f1 /\
    calculer_frequence_avec_trous 343.4 1 Ferme [mk_trou 0.25 0.01; mk_trou 0.5 0.01] 0.1 = Ok f2 /\
    f1 < f2.
Proof.
  apply diametre_tuyau_monotone; try lra;
    repeat constructor; unfold trou_dans_tuyau; simpl; lra.
Defined.

(** *** The sweeps *)

Lemma linspace_bornes (start stop : R) (num : nat) :
  start <= stop -> (1 < num)%nat -> Forall (fun x => start <= x <= stop) (linspace start stop num).
Proof.
  intros Hss Hnum. unfold linspace. apply Forall_map, Forall_forall. intros i Hi.
  apply in_seq in Hi.
  assert (Hn1 : 0 < INR (num - 1)) by (apply lt_0_INR; lia).
  assert (Hi1 : INR i <= INR (num - 1)) by (apply le_INR; lia).
  pose proof (pos_INR i).
  set (q := (stop - start) / INR (num - 1)).
  assert (Hq : INR (num - 1) * q = stop - start) by (unfold q; field; lra).
  assert (Hq0 : 0 <= q) by (unfold q, Rdiv; apply Rmult_le_pos; [lra | left; apply Rinv_0_lt_compat; exact Hn1]).
  nra.
Qed.

Lemma linspace_croissant (start stop : R) (num : nat) :
  start < stop -> (1 < num)%nat -> StronglySorted Rlt (linspace start stop num).
Proof.
  intros Hss Hnum. unfold linspace. apply map_seq_strictly_sorted. intros i j Hij.
  apply lt_INR in Hij.
  assert (0 < (stop - start) / INR (num - 1)) by (apply Rdiv_lt_0_compat; [lra | apply lt_0_INR; lia]).
  nra.
Qed.

Lemma last_map_seq (g : nat -> R) (n : nat) (d : R) :
  last (map g (seq 0 (S n))) d = g n.
Proof. rewrite seq_S, map_app. apply last_last. Qed.

Lemma x_values_percent_dernier : last x_values_percent 0 = 95.
Proof.
  unfold x_values_percent, linspace. rewrite last_map_seq.
  assert (H99 : INR (100 - 1) = INR 99) by reflexivity. rewrite H99.
  assert (0 < INR 99) by (apply lt_0_INR; lia). field_simplify; [lra | lra].
Qed.

Lemma frequence_ok (v L D : R) (t : type_tube) (trous : list trou) :
  0 < L -> 0 < D -> trous <> [] -> Forall trou_dans_tuyau trous ->
  exists y, calculer_frequence_avec_trous v L t trous D = Ok y.
Proof.
  intros HL HD Hne Hall.
  destruct (longueur_effective_minoree L D trous ltac:(lra) HD Hne Hall) as [p [r [e [E [He Hle]]]]].
  destruct (premier_minimal _ _ _ E) as [Hp _].
  rewrite Forall_forall in Hall. destruct (Hall p Hp) as [Hpp Hpd].
  eexists. apply frequence_de_longueur; [exact Hne | exact He | nra].
Qed.

(** The position sweep on any list of percentages: each value is the
    frequency with the first hole moved to that percentage, and the store
    is left with the first hole at the last percentage. *)
Lemma balayage_position_ok (v L D : R) (t : type_tube) (h : trou) (reste : list trou) (ps : list R) :
  0 < L -> 0 < D -> 0 < diametre h -> Forall trou_dans_tuyau reste ->
  Forall (fun p => 0 <= p <= 100) ps ->
  exists ys final,
    balayage_position v L t D (h :: reste) ps = Ok (ys, final) /\
    Forall2 (fun p y =>
      calculer_frequence_avec_trous v L t (mk_trou (p / 100) (diametre h) :: reste) D = Ok y) ps ys /\
    final = match ps with [] => h :: reste | _ => mk_trou (last ps 0 / 100) (diametre h) :: reste end.
Proof.
  intros HL HD Hd Hreste Hps. revert h Hd.
  induction Hps as [|p ps Hp Hps IH]; intros h Hd.
  - exists [], (h :: reste). split; [reflexivity | split; [constructor | reflexivity]].
  - cbn [balayage_position modifier_premier bind].
    destruct (frequence_ok v L D t (mk_trou (p / 100) (diametre h) :: reste) HL HD ltac:(discriminate))
      as [y Hy].
    { constructor; [unfold trou_dans_tuyau; simpl; lra | exact Hreste]. }
    rewrite Hy. cbn [bind].
    destruct (IH (mk_trou (p / 100) (diametre h)) Hd) as [ys [final [Hb [Hf2 Hfin]]]].
    rewrite Hb. cbn [bind fst snd diametre] in *.
    exists (y :: ys), final. split; [reflexivity | split; [constructor; assumption |]].
    rewrite Hfin. destruct ps; reflexivity.
Qed.

Lemma Forall2_nth_error {A B} (P : A -> B -> Prop) (xs : list A) (ys : list B) (n : nat) (x : A) :
  Forall2 P xs ys -> nth_error xs n = Some x -> exists y, nth_error ys n = Some y /\ P x y.
Proof.
  intros H. revert n. induction H as [|a b xs ys Hab _ IH]; intros n Hn; [destruct n; discriminate |].
  destruct n as [|n]; cbn in Hn |- *; [injection Hn as <-; now exists b | now apply IH].
Qed.

Lemma argmin_aux_decroissant (r : list R) (i best : nat) (x : R) :
  StronglySorted Rgt (x :: r) ->
  argmin_aux r i best x = match r with [] => best | _ => (i + length r)%nat end.
Proof.
  revert i best x. induction r as [|y r IH]; intros i best x Hs; [reflexivity |].
  apply StronglySorted_inv in Hs as [Hs Hall]. inversion Hall as [|? ? Hxy _]; subst.
  cbn [argmin_aux]. destruct (Rlt_dec y x) as [_ | Hn]; [| exfalso; lra].
  rewrite (IH (S i) (S i) y Hs). destruct r; cbn [length]; lia.
Qed.

Lemma argmin_decroissant (l : list R) :
  l <> [] -> StronglySorted Rgt l -> argmin l = Ok (length l - 1)%nat.
Proof.
  intros Hne Hs. destruct l as [|x r]; [contradiction |]. cbn [argmin].
  rewrite argmin_aux_decroissant by exact Hs. destruct r; cbn [length]; f_equal; lia.
Qed.

Lemma distance_decroissante (xs : list R) (c : R) :
  StronglySorted Rlt xs -> Forall (fun x => x <= c) xs ->
  StronglySorted Rgt (map (fun x => Rabs (x - c)) xs).
Proof.
  intros Hs. induction Hs as [|a l Hs IH Hall]; intros Hc; cbn [map]; constructor.
  - apply IH. now inversion Hc.
  - inversion Hc as [|? ? Ha Hl]; subst. apply Forall_map.
    rewrite Forall_forall in Hall, Hl |- *. intros y Hy.
    pose proof (Hall y Hy). pose proof (Hl y Hy).
    unfold Rabs. destruct (Rcase_abs (a - c)), (Rcase_abs (y - c)); lra.
Qed.

Lemma x_values_percent_99 : nth_error x_values_percent 99 = Some 95.
Proof.
  unfold x_values_percent, linspace. rewrite nth_error_map, nth_error_seq. cbn [Nat.ltb Nat.leb option_map].
  f_equal. assert (H99 : INR (100 - 1) = INR (0 + 99)) by reflexivity. rewrite H99.
  assert (0 < INR (0 + 99)) by (apply lt_0_INR; lia). field_simplify; lra.
Qed.

Lemma x_values_percent_length : length x_values_percent = 100%nat.
Proof. unfold x_values_percent, linspace. now rewrite length_map, length_seq. Qed.

(** X11: the sweep over the position of the first hole mutates the
    caller's holes ([trous.copy()] copies only the list): afterwards the
    first hole sits at 95 % of the length whatever the user chose, so the
    marker is placed at x = 95 and shows the frequency of that modified
    configuration, the last point of the curve, not the user's
    frequency. *)
Theorem balayage_position_modifie_trous (v L D : R) (t : type_tube) (h : trou) (reste : list trou)
  (HL : 0 < L) (HD : 0 < D) (Hall : Forall trou_dans_tuyau (h :: reste)) :
  exists ys y,
    balayage_position v L t D (h :: reste) x_values_percent =
      Ok (ys, mk_trou 0.95 (diametre h) :: reste) /\
    length ys = 100%nat /\
    calculer_frequence_avec_trous v L t (mk_trou 0.95 (diametre h) :: reste) D = Ok y /\
    marqueur_position (mk_trou 0.95 (diametre h) :: reste) ys = Ok (95, y).
Proof.
  inversion Hall as [|? ? [_ Hd] Hreste]; subst.
  pose proof (linspace_bornes 5 95 100 ltac:(lra) ltac:(lia)) as Hb. fold x_values_percent in Hb.
  destruct (balayage_position_ok v L D t h reste x_values_percent HL HD Hd Hreste)
    as [ys [final [Hsw [Hf2 Hfin]]]].
  { eapply Forall_impl; [| exact Hb]. intros x Hx. lra. }
  assert (Hst : mk_trou (95 / 100) (diametre h) = mk_trou 0.95 (diametre h)) by (f_equal; lra).
  assert (Hfin' : final = mk_trou 0.95 (diametre h) :: reste).
  { rewrite Hfin, <- Hst.
    destruct x_values_percent as [|p ps] eqn:E;
      [pose proof x_values_percent_length as Hl; rewrite E in Hl; discriminate Hl |].
    rewrite <- E, x_values_percent_dernier. reflexivity. }
  rewrite Hfin' in Hsw. clear Hfin Hfin'.
  destruct (Forall2_nth_error _ _ _ 99 95 Hf2 x_values_percent_99) as [y [Hy99 Hy]].
  rewrite Hst in Hy.
  exists ys, y. split; [exact Hsw | split; [| split; [exact Hy |]]].
  - rewrite <- (Forall2_length Hf2). apply x_values_percent_length.
  - unfold marqueur_position. cbn [getitem0 bind position].
    replace (0.95 * 100) with 95 by lra.
    rewrite argmin_decroissant.
    + cbn [bind]. rewrite length_map, x_values_percent_length. cbn [Nat.sub].
      rewrite Hy99. reflexivity.
    + intros E. apply (f_equal (@length R)) in E.
      rewrite length_map, x_values_percent_length in E. discriminate E.
    + apply distance_decroissante; [apply linspace_croissant; [lra | lia] |].
      eapply Forall_impl; [| exact Hb]. intros x Hx. lra.
Qed.

Lemma balayage_position_modifie_trous_witness :
  exists ys y,
    balayage_position 343.4 1 Ouvert 0.05 [mk_trou 0.25 0.01; mk_trou 0.5 0.01] x_values_percent =
      Ok (ys, [mk_trou 0.95 0.01; mk_trou 0.5 0.01]) /\
    length ys = 100%nat /\
    calculer_frequence_avec_trous 343.4 1 Ouvert [mk_trou 0.95 0.01; mk_trou 0.5 0.01] 0.05 = Ok y /\
    marqueur_position [mk_trou 0.95 0.01; mk_trou 0.5 0.01] ys = Ok (95, y).
Proof.
  apply (balayage_position_modifie_trous 343.4 1 0.05 Ouvert (mk_trou 0.25 0.01) [mk_trou 0.5 0.01]);
    try lra.
  repeat constructor; simpl; lra.
Defined.

(** The frequency of the application is [v / (coef t * e)] for a positive
    length [e] that does not depend on the speed of sound. *)
Lemma frequence_app_lineaire (L D : R) (t : type_tube) (trous : list trou) :
  0 < L -> 0 < D -> Forall trou_dans_tuyau trous ->
  exists e, 0 < e /\ forall v, frequence_app v L t trous D = Ok (v / (coef t * e)).
Proof.
  intros HL HD Hall. unfold frequence_app. pose proof (coef_pos t).
  destruct trous as [|h hs]; cbn [length Nat.ltb Nat.leb].
  - exists L. split; [exact HL |]. intros v. destruct t; apply pydiv_nonzero; simpl; lra.
  - destruct (longueur_effective_minoree L D (h :: hs) ltac:(lra) HD ltac:(discriminate) Hall)
      as [p [r [e [E [He Hle]]]]].
    destruct (premier_minimal _ _ _ E) as [Hp _].
    rewrite Forall_forall in Hall. destruct (Hall p Hp) as [Hpp Hpd].
    exists e. split; [nra |]. intros v. apply frequence_de_longueur; [discriminate | exact He | nra].
Qed.

Lemma mapM_ok {A B} (f : A -> pyres B) (g : A -> B) (xs : list A) :
  Forall (fun x => f x = Ok (g x)) xs -> mapM f xs = Ok (map g xs).
Proof.
  intros H. induction H as [|x xs Hx _ IH]; [reflexivity |].
  cbn [mapM map]. rewrite Hx. cbn [bind]. rewrite IH. reflexivity.
Qed.

Lemma map_strict_croissante (g : R -> R) (P : R -> Prop) (xs : list R) :
  (forall a b, P a -> P b -> a < b -> g a < g b) ->
  StronglySorted Rlt xs -> Forall P xs -> StronglySorted Rlt (map g xs).
Proof.
  intros Hg Hs. induction Hs as [|a l Hs IH Hall]; intros HP; cbn [map]; constructor.
  - apply IH. now inversion HP.
  - inversion HP as [|? ? Ha Hl]; subst. apply Forall_map.
    rewrite Forall_forall in Hall, Hl |- *. intros y Hy. apply Hg; auto.
Qed.

(** X12: for a positive length and pipe diameter and holes inside the pipe,
    the temperature sweep (-20 to 50 degrees C, 100 points) yields 100
    finite frequencies, strictly increasing with the temperature. *)
Theorem balayage_temperature_croissant (L D : R) (t : type_tube) (trous : list trou)
  (HL : 0 < L) (HD : 0 < D) (Hall : Forall trou_dans_tuyau trous) :
  exists ys,
    balayage_temperature L t trous D (linspace (-20) 50 100) = Ok (map Fin ys) /\
    StronglySorted Rlt ys /\ length ys = 100%nat.
Proof.
  destruct (frequence_app_lineaire L D t trous HL HD Hall) as [e [He Hf]].
  pose proof (coef_pos t).
  set (g := fun T => 331.3 * sqrt (1 + T / 273.15) / (coef t * e)).
  pose proof (linspace_bornes (-20) 50 100 ltac:(lra) ltac:(lia)) as Hb.
  exists (map g (linspace (-20) 50 100)). split; [| split].
  - unfold balayage_temperature. rewrite map_map. apply mapM_ok.
    eapply Forall_impl; [| exact Hb]. intros T HT.
    destruct (vitesse_son_positive T ltac:(lra)) as [Hv _]. rewrite Hv. cbn [bind].
    rewrite Hf. reflexivity.
  - apply (map_strict_croissante g (fun T => -20 <= T <= 50));
      [| apply linspace_croissant; [lra | lia] | exact Hb].
    intros a b Ha Hb' Hab. unfold g, Rdiv. apply Rmult_lt_compat_r.
    + apply Rinv_0_lt_compat. nra.
    + apply Rmult_lt_compat_l; [lra |]. apply sqrt_lt_1_alt. split; [lra |].
      apply Rplus_lt_compat_l, Rmult_lt_compat_r; [apply Rinv_0_lt_compat |]; lra.
  - unfold linspace. now rewrite !length_map, length_seq.
Qed.

Lemma balayage_temperature_croissant_witness :
  exists ys,
    balayage_temperature 1 Ouvert [mk_trou 0.25 0.01] 0.05 (linspace (-20) 50 100) = Ok (map Fin ys) /\
    StronglySorted Rlt ys /\ length ys = 100%nat.
Proof.
  apply balayage_temperature_croissant; try lra.
  repeat constructor; simpl; lra.
Defined.
